(** * TSP as a state-space search problem: a model of [tsp_astar_solution.py]

    The development embeds the class [TSPProblem] (constructor, [is_goal],
    [actions], [result], [cost], [heuristic]) and a best-first search
    engine over the problem interface, and proves the properties the
    specification states about them.

    Conventions of the embedding:
    - a city is a Python [str], here a [string];
    - a state is a Python tuple of cities, here a [list string];
    - [distances] is a dict of dicts, here a [gmap string (gmap string Z)];
      distances are Python integers, here [Z];
    - a call that may raise returns an [outcome]: either [Returns v] or
      [Raises e], with [e] the Python exception. *)

From stdpp Require Import gmap strings list fin_maps.
From Stdlib Require Import ZArith Lia.

Open Scope string_scope.
Open Scope list_scope.
Open Scope Z_scope.

(** ** Exceptions and the error monad *)

(** The built-in exceptions the modelled code can raise: [IndexError]
    (subscript of an empty sequence), [KeyError k] (missing dictionary key
    [k]) and [ValueError] ([min] of an empty sequence).  [NegativeCost] is
    the fatal input error of the search engine of the specification; the
    class [TSPProblem] never raises it. *)
Inductive exn : Type :=
  | IndexError
  | KeyError (key : string)
  | ValueError
  | NegativeCost.

Inductive outcome (A : Type) : Type :=
  | Returns (a : A)
  | Raises (e : exn).
Arguments Returns {A} a.
Arguments Raises {A} e.

#[global] Instance outcome_ret : MRet outcome := λ A a, Returns a.
#[global] Instance outcome_bind : MBind outcome := λ A B f m,
  match m with
  | Returns a => f a
  | Raises e => Raises e
  end.

Definition raises {A} (m : outcome A) : Prop := ∃ e, m = Raises e.

#[global] Instance raises_dec {A} (m : outcome A) : Decision (raises m).
Proof.
  destruct m as [a|e]; [right|left].
  - intros [e He]. discriminate.
  - by exists e.
Defined.

(** ** Python primitives *)

Abbreviation City := string (only parsing).
Abbreviation State := (list string) (only parsing).
Abbreviation Matrix := (gmap string (gmap string Z)) (only parsing).

(** [d[k]] on a dict. *)
Definition dict_getitem {V} (d : gmap string V) (k : string) : outcome V :=
  match d !! k with
  | Some v => Returns v
  | None => Raises (KeyError k)
  end.

(** [t[-1]] on a tuple. *)
Definition tuple_last (t : State) : outcome City :=
  match last t with
  | Some c => Returns c
  | None => Raises IndexError
  end.

(** [t[0]] on a tuple or a list. *)
Definition seq_first (t : list City) : outcome City :=
  match head t with
  | Some c => Returns c
  | None => Raises IndexError
  end.

(** [min(xs)] on a sequence of integers. *)
Definition py_min (xs : list Z) : outcome Z :=
  match xs with
  | [] => Raises ValueError
  | x :: xs' => Returns (foldl Z.min x xs')
  end.

(** ** The class [TSPProblem] *)

Record TSPProblem : Type := mkTSPProblem {
  cities : list City;
  distances : Matrix;
  initial_state : State
}.

(** [TSPProblem.__init__]: [cities[0]] raises on an empty list, before the
    object is handed back to the caller. *)
Definition TSPProblem_init (cities : list City) (distances : Matrix)
    : outcome TSPProblem :=
  c0 ← seq_first cities;
  mret (mkTSPProblem cities distances [c0]).

(** [len(state) == len(self.cities)] *)
Definition is_goal (self : TSPProblem) (state : State) : bool :=
  Nat.eqb (length state) (length (cities self)).

(** [[city for city in self.cities if city not in state]] *)
Definition actions (self : TSPProblem) (state : State) : list City :=
  filter (λ city, city ∉ state) (cities self).

(** [state + (action,)] *)
Definition result (self : TSPProblem) (state : State) (action : City) : State :=
  state ++ [action].

(** [self.distances[a][b]] *)
Definition distance (self : TSPProblem) (a b : City) : outcome Z :=
  row ← dict_getitem (distances self) a;
  dict_getitem row b.

(** [last_city = state[-1]; return self.distances[last_city][action]] *)
Definition cost (self : TSPProblem) (state : State) (action : City)
    (next_state : State)
    : outcome Z :=
  last_city ← tuple_last state;
  distance self last_city action.

Definition heuristic (self : TSPProblem) (state : State) : outcome Z :=
  if is_goal self state then
    last_city ← tuple_last state;
    row ← dict_getitem (distances self) last_city;
    start ← seq_first state;
    dict_getitem row start
  else
    current_city ← tuple_last state;
    let unvisited := filter (λ city, city ∉ state) (cities self) in
    match unvisited with
    | [] =>
        row ← dict_getitem (distances self) current_city;
        start ← seq_first state;
        dict_getitem row start
    | _ :: _ =>
        ds ← mapM (distance self current_city) unvisited;
        py_min ds
    end.

(** States the search can build: the initial state, closed under applying
    [result] to an action offered by [actions]. *)
Inductive reachable (self : TSPProblem) : State → Prop :=
  | reachable_initial : reachable self (initial_state self)
  | reachable_step state action :
      reachable self state →
      action ∈ actions self state →
      reachable self (result self state action).

(** The distance-matrix entry for the ordered pair [(a, b)], as a partial
    function: defined exactly when row [a] exists and has a column [b]. *)
Definition entry (self : TSPProblem) (a b : City) : option Z :=
  row ← distances self !! a; row !! b.

(** [return_leg self state v]: [v] is the matrix entry from the last city
    of [state] back to its first city. *)
Definition return_leg (self : TSPProblem) (state : State) (v : Z) : Prop :=
  ∃ cur start,
    last state = Some cur ∧ head state = Some start ∧
    entry self cur start = Some v.

(** [nearest_unvisited self state v]: every city of the city list that is
    not in [state] has a matrix entry from the last city of [state], and [v]
    is the least of these entries. *)
Definition nearest_unvisited (self : TSPProblem) (state : State) (v : Z)
    : Prop :=
  ∃ cur,
    last state = Some cur ∧
    (∃ c, c ∈ cities self ∧ (c ∉ state) ∧ entry self cur c = Some v) ∧
    (∀ c, c ∈ cities self → c ∉ state →
          ∃ d, entry self cur c = Some d ∧ v ≤ d).

(** The operation [result] as the specification words it: appending is
    refused when the action is already part of the state. *)
Definition result_spec (state : State) (action : City) : option State :=
  if decide (action ∈ state) then None else Some (state ++ [action]).

(** ** Conditions on the distance matrix *)

(** Every ordered pair of distinct cities of the city list has an entry. *)
Definition complete_matrix (self : TSPProblem) : Prop :=
  Forall (λ a, Forall (λ b, a ≠ b → is_Some (entry self a b)) (cities self))
         (cities self).

(** No entry of the matrix is negative. *)
Definition nonneg_matrix (self : TSPProblem) : Prop :=
  map_Forall (λ _ row, map_Forall (λ _ (d : Z), 0 ≤ d) row) (distances self).

(** ** Problem instances used in examples *)

Definition two_city_matrix : Matrix :=
  {[ "A" := {[ "B" := 7 ]}; "B" := {[ "A" := 7 ]} ]}.

(** Scenario B of the specification. *)
Definition two_cities : TSPProblem :=
  mkTSPProblem ["A"; "B"] two_city_matrix ["A"].

(** The same matrix with city ["A"] listed twice. *)
Definition repeated_city : TSPProblem :=
  mkTSPProblem ["A"; "A"; "B"] two_city_matrix ["A"].

(** The reference instance of the driver [main]. *)
Definition four_city_matrix : Matrix :=
  {[ "A" := {[ "B" := 10; "C" := 15; "D" := 20 ]};
     "B" := {[ "A" := 10; "C" := 5; "D" := 12 ]};
     "C" := {[ "A" := 15; "B" := 5; "D" := 8 ]};
     "D" := {[ "A" := 20; "B" := 12; "C" := 8 ]} ]}.

Definition four_cities : TSPProblem :=
  mkTSPProblem ["A"; "B"; "C"; "D"] four_city_matrix ["A"].

(** ** The search engine

    [astar] is imported from [simpleai.search]; its code is not among the
    sources.  The engine below follows section 4.2 of the specification. *)

(** Modelled from the spec: the abstract problem contract that the search
    engine ([simpleai.search.SearchProblem], absent from the sources)
    expects: initial state, goal test, actions, successor, step cost and
    heuristic. *)
Class SearchProblem (P St Act : Type) : Type := {
  sp_initial_state : P → St;
  sp_is_goal : P → St → bool;
  sp_actions : P → St → list Act;
  sp_result : P → St → Act → St;
  sp_cost : P → St → Act → St → outcome Z;
  sp_heuristic : P → St → outcome Z
}.

#[global] Instance TSPProblem_SearchProblem
    : SearchProblem TSPProblem State City := {|
  sp_initial_state := initial_state;
  sp_is_goal := is_goal;
  sp_actions := actions;
  sp_result := result;
  sp_cost := cost;
  sp_heuristic := heuristic
|}.

(** Modelled from the spec: the search-tree record of the absent engine: a
    state, the parent node (absent for the root), the action that produced
    the node, the accumulated path cost g and the heuristic estimate h
    taken at creation. *)
#[warnings="-register-all"]
Inductive Node (St Act : Type) : Type :=
  mkNode (state : St) (parent : option (Node St Act))
         (action : option Act) (g : Z) (h : Z).
Arguments mkNode {St Act} state parent action g h.

Definition node_state {St Act} (n : Node St Act) : St :=
  let 'mkNode state _ _ _ _ := n in state.
Definition node_parent {St Act} (n : Node St Act) : option (Node St Act) :=
  let 'mkNode _ parent _ _ _ := n in parent.
Definition node_action {St Act} (n : Node St Act) : option Act :=
  let 'mkNode _ _ action _ _ := n in action.
Definition node_cost {St Act} (n : Node St Act) : Z :=
  let 'mkNode _ _ _ g _ := n in g.
Definition node_h {St Act} (n : Node St Act) : Z :=
  let 'mkNode _ _ _ _ h := n in h.

(** The priority f = g + h. *)
Definition node_f {St Act} (n : Node St Act) : Z := node_cost n + node_h n.

(** Modelled from the spec: path reconstruction of the absent engine: walk
    the parent references up to the root, collecting (action, state) pairs,
    in root-to-terminal order. *)
Fixpoint node_path {St Act} (n : Node St Act) : list (option Act * St) :=
  match n with
  | mkNode state parent action _ _ =>
      match parent with
      | Some p => node_path p
      | None => []
      end ++ [(action, state)]
  end.

(** Modelled from the spec: what a run of the absent engine reports: the
    terminal node, or exhaustion of the frontier; [OutOfFuel] belongs to
    the model only. *)
Inductive search_result (St Act : Type) : Type :=
  | Found (n : Node St Act)
  | Exhausted
  | OutOfFuel.
Arguments Found {St Act} n.
Arguments Exhausted {St Act}.
Arguments OutOfFuel {St Act}.

Section engine.
Context {P St Act : Type} `{SearchProblem P St Act}.
Context `{Countable St}.

(** Modelled from the spec: the frontier of the absent engine, a list in
    insertion order from which the node of least f is removed, the
    earliest inserted one among equals. *)
Fixpoint pop_min (frontier : list (Node St Act))
    : option (Node St Act * list (Node St Act)) :=
  match frontier with
  | [] => None
  | n :: frontier' =>
      match pop_min frontier' with
      | None => Some (n, [])
      | Some (m, rest) =>
          if node_f n <=? node_f m then Some (n, frontier')
          else Some (m, n :: rest)
      end
  end.

(** Modelled from the spec: step 5 of the absent engine, for the node [n]
    taken from the frontier and the actions still to be tried. *)
Fixpoint expand (problem : P) (n : Node St Act) (acts : list Act)
    (frontier : list (Node St Act)) (explored : gmap St Z)
    : outcome (list (Node St Act) * gmap St Z) :=
  match acts with
  | [] => mret (frontier, explored)
  | a :: acts' =>
      let next_state := sp_result problem (node_state n) a in
      step_cost ← sp_cost problem (node_state n) a next_state;
      if step_cost <? 0 then Raises NegativeCost
      else
        let tentative_g := node_cost n + step_cost in
        let better :=
          match explored !! next_state with
          | None => true
          | Some recorded => tentative_g <? recorded
          end in
        if better then
          h ← sp_heuristic problem next_state;
          let child := mkNode next_state (Some n) (Some a) tentative_g h in
          expand problem n acts' (frontier ++ [child])
                 (<[next_state := tentative_g]> explored)
        else expand problem n acts' frontier explored
  end.

(** Modelled from the spec: steps 2 to 6 of the absent engine; [fuel]
    bounds the number of nodes taken from the frontier. *)
Fixpoint search_loop (fuel : nat) (problem : P)
    (frontier : list (Node St Act)) (explored : gmap St Z)
    : outcome (search_result St Act) :=
  match fuel with
  | O => mret OutOfFuel
  | S fuel' =>
      match pop_min frontier with
      | None => mret Exhausted
      | Some (n, rest) =>
          if sp_is_goal problem (node_state n) then mret (Found n)
          else
            fe ← expand problem n (sp_actions problem (node_state n))
                        rest explored;
            search_loop fuel' problem fe.1 fe.2
      end
  end.

(** Modelled from the spec: the entry point [astar] of the absent
    engine (section 4.2, step 1 and the loop). *)
Definition astar (fuel : nat) (problem : P)
    : outcome (search_result St Act) :=
  let s0 := sp_initial_state problem in
  h0 ← sp_heuristic problem s0;
  let root := mkNode s0 None None 0 h0 in
  search_loop fuel problem [root] {[ s0 := 0 ]}.
End engine.

(** The two nodes the search creates on the two-city instance. *)
Definition two_cities_root : Node (list string) string :=
  mkNode ["A"] None None 0 7.

Definition two_cities_terminal : Node (list string) string :=
  mkNode ["A"; "B"] (Some two_cities_root) (Some "B") 7 7.

(** ** Basic facts about the primitives *)

Lemma bind_Returns {A B} (f : A → outcome B) (m : outcome A) (b : B) :
  m ≫= f = Returns b ↔ ∃ a, m = Returns a ∧ f a = Returns b.
Proof.
  destruct m as [a|e]; unfold mbind, outcome_bind.
  - split; [by exists a | by intros (? & [= ->] & ?)].
  - split; [done | intros (? & [=] & ?)].
Qed.

Lemma bind_Returns_l {A B} (f : A → outcome B) (a : A) :
  Returns a ≫= f = f a.
Proof. reflexivity. Qed.

Lemma bind_Raises_l {A B} (f : A → outcome B) (e : exn) :
  Raises e ≫= f = Raises e.
Proof. reflexivity. Qed.

Lemma dict_getitem_Returns {V} (d : gmap string V) k v :
  dict_getitem d k = Returns v ↔ d !! k = Some v.
Proof. unfold dict_getitem. destruct (d !! k); naive_solver. Qed.

Lemma dict_getitem_raises {V} (d : gmap string V) k :
  raises (dict_getitem d k) ↔ d !! k = None.
Proof.
  unfold dict_getitem, raises. destruct (d !! k).
  - split; [intros [? [=]] | done].
  - split; [done | by eexists].
Qed.

Lemma tuple_last_Returns t c : tuple_last t = Returns c ↔ last t = Some c.
Proof. unfold tuple_last. destruct (last t); naive_solver. Qed.

Lemma seq_first_Returns t c : seq_first t = Returns c ↔ head t = Some c.
Proof. unfold seq_first. destruct (head t); naive_solver. Qed.

Lemma distance_Returns self a b d :
  distance self a b = Returns d ↔ entry self a b = Some d.
Proof.
  unfold distance, entry. rewrite bind_Returns, bind_Some.
  by setoid_rewrite dict_getitem_Returns.
Qed.

Lemma distance_raises self a b :
  raises (distance self a b) ↔ entry self a b = None.
Proof.
  destruct (distance self a b) as [d|e] eqn:E.
  - apply distance_Returns in E. rewrite E. split; [intros [? [=]] | done].
  - split; [intros _ | by eexists].
    destruct (entry self a b) as [d|] eqn:E'; [|done].
    apply distance_Returns in E'. congruence.
Qed.

Lemma is_goal_length self state :
  is_goal self state = true ↔ length state = length (cities self).
Proof. unfold is_goal. apply Nat.eqb_eq. Qed.

Lemma elem_of_actions self state c :
  c ∈ actions self state ↔ c ∈ cities self ∧ c ∉ state.
Proof. unfold actions. rewrite list_elem_of_filter. tauto. Qed.

Lemma actions_nil self state :
  actions self state = [] ↔ ∀ c, c ∈ cities self → c ∈ state.
Proof.
  split.
  - intros E c Hc. destruct (decide (c ∈ state)) as [|Hn]; [done|].
    assert (c ∈ actions self state) as Hin by by apply elem_of_actions.
    rewrite E in Hin. by apply elem_of_nil in Hin.
  - intros H. destruct (actions self state) as [|c l] eqn:E; [done|].
    assert (c ∈ actions self state) as Hin by (rewrite E; left).
    apply elem_of_actions in Hin as [Hc Hn]. by destruct Hn; apply H.
Qed.

(** Pigeonhole: a duplicate-free state over a duplicate-free city list has
    the length of the list exactly when it covers the list. *)
Lemma length_eq_iff_covers (cs state : list City) :
  NoDup cs → NoDup state → state ⊆ cs →
  length state = length cs ↔ ∀ c, c ∈ cs → c ∈ state.
Proof.
  intros Hcs Hst Hsub.
  assert (state ⊆+ cs) as Hsm by by apply NoDup_submseteq.
  split.
  - intros Hlen c Hc.
    assert (state ≡ₚ cs) as Hp
      by (apply submseteq_length_Permutation; [done | lia]).
    by rewrite Hp.
  - intros Hcov.
    assert (cs ⊆+ state) as Hsm' by by apply NoDup_submseteq.
    apply submseteq_length in Hsm, Hsm'. lia.
Qed.

Lemma actions_nil_is_goal self state :
  NoDup (cities self) → NoDup state → state ⊆ cities self →
  actions self state = [] ↔ is_goal self state = true.
Proof.
  intros Hcs Hst Hsub.
  rewrite actions_nil, is_goal_length. symmetry.
  by apply length_eq_iff_covers.
Qed.

(** What every reachable state of a constructed problem looks like. *)
Lemma reachable_shape cs d self state :
  TSPProblem_init cs d = Returns self → reachable self state →
  NoDup state ∧ state ⊆ cities self ∧ state ≠ [] ∧ head state = head cs.
Proof.
  intros Hinit Hr. unfold TSPProblem_init in Hinit.
  apply bind_Returns in Hinit as (c0 & Hc0 & [= <-]).
  apply seq_first_Returns in Hc0.
  induction Hr as [|state action _ (Hnd & Hsub & Hne & Hhd) Hact]; simpl in *.
  - repeat split; [apply NoDup_singleton | | done | done].
    intros c ->%list_elem_of_singleton. by apply head_Some_elem_of.
  - apply elem_of_actions in Hact as [Hc Hn]. simpl in Hc.
    unfold result. repeat split.
    + apply NoDup_app. repeat split; [done | | apply NoDup_singleton].
      intros x Hx ->%list_elem_of_singleton. done.
    + intros x [Hx | ->%list_elem_of_singleton]%elem_of_app; auto.
    + by destruct state.
    + destruct state; [done | by simpl].
Qed.

(** Closed membership and equality goals over concrete lists and maps. *)
Ltac by_compute := apply (bool_decide_unpack _); vm_compute; reflexivity.

Lemma two_cities_init :
  TSPProblem_init ["A"; "B"] two_city_matrix = Returns two_cities.
Proof. reflexivity. Qed.

Lemma repeated_city_init :
  TSPProblem_init ["A"; "A"; "B"] two_city_matrix = Returns repeated_city.
Proof. reflexivity. Qed.

Lemma two_cities_reachable : reachable two_cities ["A"; "B"].
Proof.
  apply (reachable_step two_cities ["A"] "B"); [apply reachable_initial|].
  by_compute.
Qed.

Lemma repeated_city_reachable : reachable repeated_city ["A"; "B"].
Proof.
  apply (reachable_step repeated_city ["A"] "B"); [apply reachable_initial|].
  by_compute.
Qed.

(** ** The constructor *)

(** C8: constructing the problem with an empty city list raises
    [IndexError] in the constructor itself, so no problem object exists
    afterwards; and the constructor raises for no other city list. *)
Theorem init_empty_city_list (d : Matrix) :
  TSPProblem_init [] d = Raises IndexError ∧
  ∀ cs, raises (TSPProblem_init cs d) ↔ cs = [].
Proof.
  split; [reflexivity|].
  intros [|c cs]; split; try done.
  - intros _. by exists IndexError.
  - intros [e [=]].
Qed.

(** ** Transitions *)

(** C2: every state reachable from the initial state of a constructed
    problem, by applying [result] to actions drawn from [actions], contains
    no city twice. *)
Theorem reachable_NoDup cs d self state :
  TSPProblem_init cs d = Returns self → reachable self state → NoDup state.
Proof. intros Hinit Hr. by destruct (reachable_shape _ _ _ _ Hinit Hr). Qed.

Lemma reachable_NoDup_witness :
  TSPProblem_init ["A"; "B"] two_city_matrix = Returns two_cities ∧
  reachable two_cities ["A"; "B"] ∧
  NoDup ["A"; "B"].
Proof.
  split; [reflexivity|]. split; [exact two_cities_reachable|].
  apply (reachable_NoDup ["A"; "B"] two_city_matrix two_cities);
    [reflexivity | exact two_cities_reachable].
Defined.

(** C5, as the code has it: [result] returns the state with the action
    appended for every state and action and never fails; when the action
    is new the outcome is the one the specification describes and
    duplicate-freeness is kept, and when the action is already present the
    returned state holds it twice. *)
Theorem result_appends self state action :
  result self state action = state ++ [action] ∧
  last (result self state action) = Some action ∧
  length (result self state action) = S (length state) ∧
  (action ∉ state →
     result_spec state action = Some (result self state action) ∧
     (NoDup state → NoDup (result self state action))) ∧
  (action ∈ state →
     result_spec state action = None ∧ ¬ NoDup (result self state action)).
Proof.
  unfold result, result_spec. repeat split.
  - apply last_snoc.
  - rewrite length_app. simpl. lia.
  - by rewrite decide_False.
  - intros Hnd. apply NoDup_app. repeat split; [done | | apply NoDup_singleton].
    intros x Hx ->%list_elem_of_singleton. done.
  - by rewrite decide_True.
  - intros (_ & Hdisj & _)%NoDup_app.
    apply (Hdisj action); [done | by apply list_elem_of_singleton].
Qed.

Lemma result_appends_witness :
  ("B" ∉ ["A"]) ∧ "A" ∈ ["A"] ∧
  result_spec ["A"] "B" = Some (result two_cities ["A"] "B") ∧
  ¬ NoDup (result two_cities ["A"] "A").
Proof.
  assert ("B" ∉ ["A"]) as Hnew by by_compute.
  assert ("A" ∈ ["A"]) as Hold by by_compute.
  split; [exact Hnew|]. split; [exact Hold|]. split.
  - exact (proj1 (proj1 (proj2 (proj2 (proj2
      (result_appends two_cities ["A"] "B")))) Hnew)).
  - exact (proj2 (proj2 (proj2 (proj2 (proj2
      (result_appends two_cities ["A"] "A")))) Hold)).
Defined.

(** C5, as stated, fails: applying an action that is already in the state
    does not fail; the call returns the state with the city repeated,
    where the specified operation refuses. *)
Lemma result_revisit_does_not_fail :
  "A" ∈ ["A"] ∧
  result two_cities ["A"] "A" = ["A"; "A"] ∧
  result_spec ["A"] "A" = None ∧
  Some (result two_cities ["A"] "A") ≠ result_spec ["A"] "A".
Proof. repeat split; [by_compute | done]. Qed.

(** C6: [cost] returns the matrix entry from the last city of the state to
    the action exactly when the state is non-empty and that entry exists
    (the third argument plays no role), and it raises exactly when the
    state is empty ([IndexError]) or the entry is absent ([KeyError]). *)
Theorem cost_spec self state action next_state :
  (∀ d, cost self state action next_state = Returns d ↔
        ∃ last_city, last state = Some last_city ∧
                     entry self last_city action = Some d) ∧
  (raises (cost self state action next_state) ↔
     state = [] ∨
     ∃ last_city, last state = Some last_city ∧
                  entry self last_city action = None) ∧
  (cost self state action next_state = Raises IndexError ↔ state = []).
Proof.
  unfold cost, tuple_last.
  destruct (last state) as [c|] eqn:Hlast;
    rewrite ?bind_Returns_l, ?bind_Raises_l.
  - assert (state ≠ []) as Hne by (intros ->; done).
    repeat split.
    + intros Hd. exists c. by rewrite <-distance_Returns.
    + intros (c' & [= <-] & He). by apply distance_Returns.
    + intros Hr. right. exists c. by rewrite <-distance_raises.
    + intros [? | (c' & [= <-] & He)]; [done | by apply distance_raises].
    + unfold distance, dict_getitem. unfold mbind, outcome_bind.
      destruct (distances self !! c) as [row|]; [|done].
      by destruct (row !! action).
    + done.
  - apply last_None in Hlast as ->. split; [|split].
    + intros d. split; [done | by intros (c & [=] & _)].
    + split; [by left | intros _; by exists IndexError].
    + done.
Qed.

(** ** Goal test and actions *)

(** C3, as the code has it: for every state, [is_goal] holds exactly when
    the state has the length of the city list; for a duplicate-free state
    whose cities all come from a duplicate-free city list, this is exactly
    "every city of the list appears in the state". *)
Theorem is_goal_iff_covers self state :
  (is_goal self state = true ↔ length state = length (cities self)) ∧
  (NoDup (cities self) → NoDup state → state ⊆ cities self →
   (is_goal self state = true ↔ ∀ c, c ∈ cities self → c ∈ state)).
Proof.
  split; [apply is_goal_length|]. intros Hcs Hst Hsub.
  rewrite is_goal_length. by apply length_eq_iff_covers.
Qed.

Lemma is_goal_iff_covers_witness :
  NoDup (cities two_cities) ∧ NoDup ["A"; "B"] ∧
  ["A"; "B"] ⊆ cities two_cities ∧
  (is_goal two_cities ["A"; "B"] = true ↔
   ∀ c, c ∈ cities two_cities → c ∈ ["A"; "B"]).
Proof.
  assert (NoDup (cities two_cities)) as H1 by by_compute.
  assert (["A"; "B"] ⊆ cities two_cities) as H2 by (intros c Hc; exact Hc).
  split; [exact H1|]. split; [exact H1|]. split; [exact H2|].
  exact (proj2 (is_goal_iff_covers two_cities ["A"; "B"]) H1 H1 H2).
Defined.

(** C3, as stated, fails in both directions: with a city listed twice the
    reachable state [("A", "B")] covers the list and is no goal; a state
    with a repeated city, or with a city foreign to the list, is a goal
    although city ["B"] is missing from it. *)
Lemma is_goal_not_coverage :
  ¬ (is_goal repeated_city ["A"; "B"] = true ↔
     ∀ c, c ∈ cities repeated_city → c ∈ ["A"; "B"]) ∧
  ¬ (is_goal two_cities ["A"; "A"] = true ↔
     ∀ c, c ∈ cities two_cities → c ∈ ["A"; "A"]) ∧
  ¬ (is_goal two_cities ["A"; "C"] = true ↔
     ∀ c, c ∈ cities two_cities → c ∈ ["A"; "C"]).
Proof.
  split; [|split].
  - intros [_ H]. enough (false = true) by done. apply H.
    intros c [-> | [-> | ->%list_elem_of_singleton]%elem_of_cons]%elem_of_cons;
      by_compute.
  - intros [H _]. specialize (H eq_refl "B").
    assert ("B" ∉ ["A"; "A"]) as Hn by by_compute.
    apply Hn, H. by_compute.
  - intros [H _]. specialize (H eq_refl "B").
    assert ("B" ∉ ["A"; "C"]) as Hn by by_compute.
    apply Hn, H. by_compute.
Qed.

(** C4, as the code has it: [actions] returns exactly the cities of the
    list that are not in the state, and it is empty exactly when every
    city of the list is in the state; for a duplicate-free state drawn
    from a duplicate-free city list that is exactly when [is_goal] holds. *)
Theorem actions_spec self state :
  (∀ c, c ∈ actions self state ↔ c ∈ cities self ∧ c ∉ state) ∧
  (actions self state = [] ↔ ∀ c, c ∈ cities self → c ∈ state) ∧
  (NoDup (cities self) → NoDup state → state ⊆ cities self →
   (actions self state = [] ↔ is_goal self state = true)).
Proof.
  split; [intros c; apply elem_of_actions|].
  split; [apply actions_nil|].
  apply actions_nil_is_goal.
Qed.

Lemma actions_spec_witness :
  NoDup (cities two_cities) ∧ NoDup ["A"] ∧ ["A"] ⊆ cities two_cities ∧
  (actions two_cities ["A"] = [] ↔ is_goal two_cities ["A"] = true).
Proof.
  assert (NoDup (cities two_cities)) as H1 by by_compute.
  assert (NoDup ["A"]) as H2 by by_compute.
  assert (["A"] ⊆ cities two_cities) as H3
    by (intros c ->%list_elem_of_singleton; by_compute).
  split; [exact H1|]. split; [exact H2|]. split; [exact H3|].
  exact (proj2 (proj2 (actions_spec two_cities ["A"])) H1 H2 H3).
Defined.

(** C4, as stated, fails in its second half: with a city listed twice the
    reachable state [("A", "B")] has no action left and is no goal; a state
    with a repeated or foreign city is a goal and still has the action
    ["B"]. *)
Lemma actions_empty_not_goal :
  ¬ (actions repeated_city ["A"; "B"] = [] ↔
     is_goal repeated_city ["A"; "B"] = true) ∧
  ¬ (actions two_cities ["A"; "A"] = [] ↔
     is_goal two_cities ["A"; "A"] = true) ∧
  ¬ (actions two_cities ["A"; "C"] = [] ↔
     is_goal two_cities ["A"; "C"] = true).
Proof.
  split; [|split].
  - intros [H _]. enough (false = true) by done. apply H. by_compute.
  - intros [_ H]. specialize (H eq_refl).
    assert (actions two_cities ["A"; "A"] = ["B"]) as E by by_compute.
    congruence.
  - intros [_ H]. specialize (H eq_refl).
    assert (actions two_cities ["A"; "C"] = ["B"]) as E by by_compute.
    congruence.
Qed.

(** A sublist keeps positions in order: its entries sit in the longer list
    at strictly increasing indices. *)
Lemma sublist_increasing_positions {A} (l k : list A) :
  l `sublist_of` k →
  ∃ f : nat → nat,
    (∀ i j, (i < j)%nat → (f i < f j)%nat) ∧
    (∀ i x, l !! i = Some x → k !! f i = Some x).
Proof.
  induction 1 as [|x l k _ (f & Hmono & Hf)|x l k _ (f & Hmono & Hf)].
  - exists id. split; [done|]. by intros i x.
  - exists (λ i, match i with O => O | S i' => S (f i') end). split.
    + intros [|i] [|j] Hij; try lia. specialize (Hmono i j). lia.
    + intros [|i] y Hy; simpl in *; [done | by apply Hf].
  - exists (λ i, S (f i)). split.
    + intros i j Hij. specialize (Hmono i j). lia.
    + intros i y Hy. simpl. by apply Hf.
Qed.

(** C9: [actions] lists the unvisited cities in the relative order of the
    city list: it is the city list with the visited cities struck out, so
    its entries occur in the city list at strictly increasing positions;
    and it depends on the city list and the state only. *)
Theorem actions_order self state :
  actions self state `sublist_of` cities self ∧
  (∃ f : nat → nat,
     (∀ i j, (i < j)%nat → (f i < f j)%nat) ∧
     (∀ i c, actions self state !! i = Some c →
             cities self !! f i = Some c)) ∧
  (∀ c, c ∈ actions self state ↔ c ∈ cities self ∧ c ∉ state) ∧
  (∀ l1 l2 d i,
     actions (mkTSPProblem (l1 ++ l2) d i) state =
       actions (mkTSPProblem l1 d i) state ++
       actions (mkTSPProblem l2 d i) state) ∧
  (∀ d i, actions (mkTSPProblem (cities self) d i) state =
          actions self state).
Proof.
  assert (actions self state `sublist_of` cities self) as Hsub
    by apply sublist_filter.
  split; [done|]. split; [by apply sublist_increasing_positions|].
  split; [intros c; apply elem_of_actions|]. split; [|done].
  intros l1 l2 d i. unfold actions. simpl. apply filter_app.
Qed.

(** ** The heuristic *)

Lemma mapM_Returns {A B} (f : A → outcome B) (l : list A) (k : list B) :
  mapM f l = Returns k ↔ Forall2 (λ x y, f x = Returns y) l k.
Proof.
  revert k. induction l as [|x l IH]; intros k; simpl.
  - split; [intros [= <-]; constructor | by inversion 1].
  - rewrite bind_Returns. split.
    + intros (y & Hy & (k' & Hk' & [= <-])%bind_Returns).
      constructor; [done | by apply IH].
    + inversion 1 as [|? y ? k' Hy Hk']; subst.
      exists y. split; [done|]. apply bind_Returns.
      exists k'. split; [by apply IH | done].
Qed.

Lemma mapM_total {A B} (f : A → outcome B) (l : list A) :
  (∀ x, x ∈ l → ∃ y, f x = Returns y) → ∃ k, mapM f l = Returns k.
Proof.
  induction l as [|x l IH]; intros Hall; simpl.
  - by exists [].
  - destruct (Hall x) as [y Hy]; [left|].
    destruct IH as [k Hk]; [intros z Hz; apply Hall; by right|].
    exists (y :: k). by rewrite Hy, bind_Returns_l, Hk.
Qed.

Lemma Forall2_elem_of {A B} (R : A → B → Prop) l k :
  Forall2 R l k →
  (∀ y, y ∈ k → ∃ x, x ∈ l ∧ R x y) ∧ (∀ x, x ∈ l → ∃ y, y ∈ k ∧ R x y).
Proof.
  induction 1 as [|x y l k HR _ [IH1 IH2]]; split.
  - by intros y ?%elem_of_nil.
  - by intros x ?%elem_of_nil.
  - intros y' [-> | Hy]%elem_of_cons.
    + exists x. split; [left | done].
    + destruct (IH1 _ Hy) as (x' & ? & ?). exists x'. split; [by right | done].
  - intros x' [-> | Hx]%elem_of_cons.
    + exists y. split; [left | done].
    + destruct (IH2 _ Hx) as (y' & ? & ?). exists y'. split; [by right | done].
Qed.

Lemma foldl_min_spec (xs : list Z) (x : Z) :
  foldl Z.min x xs ∈ x :: xs ∧ ∀ y, y ∈ x :: xs → foldl Z.min x xs ≤ y.
Proof.
  revert x. induction xs as [|z xs IH]; intros x; simpl.
  - split; [left|]. intros y ->%list_elem_of_singleton. lia.
  - destruct (IH (Z.min x z)) as [Hin Hle]. split.
    + apply elem_of_cons in Hin as [-> | Hin]; [|by do 2 right].
      destruct (Z.min_spec x z) as [[_ ->] | [_ ->]]; [left | right; left].
    + intros y Hy.
      assert (foldl Z.min (Z.min x z) xs ≤ Z.min x z) as H0 by (apply Hle; left).
      apply elem_of_cons in Hy as [-> | [-> | Hy]%elem_of_cons]; [lia | lia |].
      apply Hle. by right.
Qed.

Lemma py_min_Returns (xs : list Z) (m : Z) :
  py_min xs = Returns m ↔ m ∈ xs ∧ ∀ y, y ∈ xs → m ≤ y.
Proof.
  destruct xs as [|x xs]; simpl.
  - split; [done | by intros [?%elem_of_nil _]].
  - destruct (foldl_min_spec xs x) as [Hin Hle]. split.
    + by intros [= <-].
    + intros [Hm Hlb]. f_equal. apply Z.le_antisymm; auto.
Qed.

(** The branch that takes the minimum over the unvisited cities. *)
Lemma nearest_Returns self cur (unvisited : list City) v :
  (ds ← mapM (distance self cur) unvisited; py_min ds) = Returns v ↔
  (∃ c, c ∈ unvisited ∧ entry self cur c = Some v) ∧
  (∀ c, c ∈ unvisited → ∃ d, entry self cur c = Some d ∧ v ≤ d).
Proof.
  rewrite bind_Returns. split.
  - intros (ds & [Hback Hforth]%mapM_Returns%Forall2_elem_of
               & [Hin Hlb]%py_min_Returns).
    split.
    + destruct (Hback _ Hin) as (c & Hc & Hd%distance_Returns). eauto.
    + intros c Hc. destruct (Hforth _ Hc) as (d & Hd & He%distance_Returns).
      eauto.
  - intros [(c & Hc & Hv) Hall].
    destruct (mapM_total (distance self cur) unvisited) as [ds Hds].
    { intros x Hx. destruct (Hall _ Hx) as (d & Hd & _).
      exists d. by apply distance_Returns. }
    exists ds. split; [done|].
    apply mapM_Returns, Forall2_elem_of in Hds as [Hback Hforth].
    apply py_min_Returns. split.
    + destruct (Hforth _ Hc) as (d & Hd & He%distance_Returns). congruence.
    + intros y Hy. destruct (Hback _ Hy) as (x & Hx & He%distance_Returns).
      destruct (Hall _ Hx) as (d & Hd & Hle). congruence.
Qed.

(** The two branches that return the leg back to the first city. *)
Lemma return_leg_Returns self state v :
  (cur ← tuple_last state;
   row ← dict_getitem (distances self) cur;
   start ← seq_first state;
   dict_getitem row start) = Returns v ↔ return_leg self state v.
Proof.
  unfold return_leg, entry. rewrite bind_Returns.
  setoid_rewrite bind_Returns. setoid_rewrite bind_Returns.
  setoid_rewrite tuple_last_Returns. setoid_rewrite seq_first_Returns.
  setoid_rewrite dict_getitem_Returns. setoid_rewrite bind_Some.
  split.
  - intros (cur & ? & row & ? & start & ? & ?). exists cur, start. eauto 10.
  - intros (cur & start & ? & ? & row & ? & ?). exists cur. eauto 10.
Qed.

Lemma nearest_unvisited_Returns self state cur v :
  last state = Some cur →
  (ds ← mapM (distance self cur) (actions self state); py_min ds) = Returns v
  ↔ nearest_unvisited self state v.
Proof.
  intros Hlast. rewrite nearest_Returns. unfold nearest_unvisited.
  setoid_rewrite elem_of_actions. split.
  - intros [(c & [? ?] & ?) Hall]. exists cur. split; [done|].
    split; [by exists c|]. intros c' ? ?. by apply Hall.
  - intros (cur' & Hlast' & (c & ? & ? & ?) & Hall).
    assert (cur' = cur) as -> by congruence.
    split; [by exists c|]. intros c' [? ?]. by apply Hall.
Qed.

(** C1, as the code has it: [heuristic] returns [v] exactly when
    - the state is a goal and [v] is the matrix entry from its last city
      back to its first city, or
    - the state is no goal, some city of the list is unvisited, every
      unvisited city has an entry from the last city and [v] is the least
      of them, or
    - the state is no goal, no city of the list is unvisited and [v] is
      the matrix entry from the last city back to the first city. *)
Theorem heuristic_spec self state v :
  heuristic self state = Returns v ↔
  if is_goal self state then return_leg self state v
  else match actions self state with
       | [] => return_leg self state v
       | _ :: _ => nearest_unvisited self state v
       end.
Proof.
  unfold heuristic. destruct (is_goal self state).
  - apply return_leg_Returns.
  - fold (actions self state).
    destruct (last state) as [cur|] eqn:Hlast.
    + assert (tuple_last state = Returns cur) as Hcur
        by by apply tuple_last_Returns.
      destruct (actions self state) as [|c l] eqn:Hact.
      * rewrite <-return_leg_Returns. by rewrite Hcur.
      * rewrite Hcur, bind_Returns_l, <-Hact.
        by apply nearest_unvisited_Returns.
    + unfold tuple_last. rewrite Hlast, bind_Raises_l.
      split; [done|].
      destruct (actions self state).
      * intros (? & ? & ? & _). congruence.
      * intros (? & ? & _). congruence.
Qed.

(** C1, as stated, fails where the state is no goal and yet no city is
    unvisited: with city ["A"] listed twice, the reachable state
    [("A", "B")] has length 2 against a list of length 3, no city is left,
    and the heuristic returns the entry back to the start, 7, which is not
    the least entry to an unvisited city since there is none. *)
Lemma heuristic_fallback_not_nearest :
  reachable repeated_city ["A"; "B"] ∧
  is_goal repeated_city ["A"; "B"] = false ∧
  heuristic repeated_city ["A"; "B"] = Returns 7 ∧
  ¬ nearest_unvisited repeated_city ["A"; "B"] 7 ∧
  ¬ ∃ c, c ∈ cities repeated_city ∧ c ∉ ["A"; "B"].
Proof.
  assert (¬ ∃ c, c ∈ cities repeated_city ∧ c ∉ ["A"; "B"]) as Hnone.
  { intros (c & Hc & Hn). apply Hn. revert Hc.
    intros [-> | [-> | ->%list_elem_of_singleton]%elem_of_cons]%elem_of_cons;
      by_compute. }
  split; [exact repeated_city_reachable|]. split; [done|].
  split; [vm_compute; reflexivity|]. split; [|done].
  intros (cur & _ & (c & Hc & Hn & _) & _). apply Hnone. by exists c.
Qed.

(** C10, as the code has it: when the city list has no duplicates, a
    non-empty duplicate-free state drawn from the list that is no goal
    leaves the list of unvisited cities non-empty, so the branch returning
    the leg back to the start is not taken and the heuristic returns
    exactly the least entry from the last city to an unvisited city. *)
Theorem heuristic_nearest_when_not_goal self state :
  NoDup (cities self) →
  state ≠ [] → NoDup state → state ⊆ cities self →
  is_goal self state = false →
  filter (λ city, city ∉ state) (cities self) ≠ [] ∧
  (∃ cur, last state = Some cur ∧
     heuristic self state =
       (ds ← mapM (distance self cur)
                  (filter (λ city, city ∉ state) (cities self));
        py_min ds)) ∧
  (∀ v, heuristic self state = Returns v ↔ nearest_unvisited self state v).
Proof.
  intros Hcs Hne Hst Hsub Hgoal. fold (actions self state).
  assert (actions self state ≠ []) as Hact.
  { intros E. apply actions_nil_is_goal in E; [|done..]. congruence. }
  split; [done|]. split.
  - apply last_is_Some in Hne as [cur Hlast]. exists cur. split; [done|].
    unfold heuristic. rewrite Hgoal. fold (actions self state).
    unfold tuple_last. rewrite Hlast, bind_Returns_l.
    by destruct (actions self state).
  - intros v. rewrite heuristic_spec, Hgoal.
    by destruct (actions self state).
Qed.

(** C10, as stated, fails when the city list repeats a city: the state
    [("A", "B")] is non-empty, duplicate-free, drawn from the list
    [["A"; "A"; "B"]] and no goal, yet the list of unvisited cities is
    empty and the heuristic takes the branch back to the start. *)
Lemma heuristic_fallback_reached :
  ["A"; "B"] ≠ [] ∧ NoDup ["A"; "B"] ∧
  ["A"; "B"] ⊆ cities repeated_city ∧
  is_goal repeated_city ["A"; "B"] = false ∧
  filter (λ city, city ∉ ["A"; "B"]) (cities repeated_city) = [] ∧
  heuristic repeated_city ["A"; "B"] = Returns 7 ∧
  ¬ (∀ v, heuristic repeated_city ["A"; "B"] = Returns v ↔
          nearest_unvisited repeated_city ["A"; "B"] v).
Proof.
  assert (heuristic repeated_city ["A"; "B"] = Returns 7) as Hh
    by (vm_compute; reflexivity).
  assert (filter (λ city, city ∉ ["A"; "B"]) (cities repeated_city) = [])
    as Hnil by by_compute.
  split; [done|]. split; [by_compute|]. split.
  { intros c [-> | ->%list_elem_of_singleton]%elem_of_cons; by_compute. }
  split; [done|]. split; [done|]. split; [done|].
  intros Hall. apply Hall in Hh as (cur & _ & (c & Hc & Hn & _) & _).
  assert (c ∈ filter (λ city, city ∉ ["A"; "B"]) (cities repeated_city)) as Hin
    by by apply list_elem_of_filter.
  rewrite Hnil in Hin. by apply elem_of_nil in Hin.
Qed.

Lemma heuristic_nearest_when_not_goal_witness :
  NoDup (cities two_cities) ∧ ["A"] ≠ [] ∧ NoDup ["A"] ∧
  ["A"] ⊆ cities two_cities ∧ is_goal two_cities ["A"] = false ∧
  filter (λ city, city ∉ ["A"]) (cities two_cities) ≠ [] ∧
  (∀ v, heuristic two_cities ["A"] = Returns v ↔
        nearest_unvisited two_cities ["A"] v).
Proof.
  assert (NoDup (cities two_cities)) as H1 by by_compute.
  assert (["A"] ≠ []) as H2 by discriminate.
  assert (NoDup ["A"]) as H3 by by_compute.
  assert (["A"] ⊆ cities two_cities) as H4
    by (intros c ->%list_elem_of_singleton; by_compute).
  assert (is_goal two_cities ["A"] = false) as H5 by reflexivity.
  pose proof (heuristic_nearest_when_not_goal two_cities ["A"]
                H1 H2 H3 H4 H5) as (Hne & _ & Hv).
  repeat (split; [assumption|]). exact Hv.
Defined.

(** The heuristic on the reference instance: nearest unvisited city from
    the start, and the closing leg at a goal. *)
Example heuristic_four_cities :
  heuristic four_cities ["A"] = Returns 10 ∧
  heuristic four_cities ["A"; "B"] = Returns 5 ∧
  heuristic four_cities ["A"; "B"; "C"; "D"] = Returns 20 ∧
  heuristic four_cities [] = Raises IndexError ∧
  cost four_cities ["A"; "B"] "C" ["A"; "B"; "C"] = Returns 5 ∧
  cost four_cities ["A"] "A" ["A"; "A"] = Raises (KeyError "A").
Proof. repeat split; vm_compute; reflexivity. Qed.

(** ** The search on concrete instances *)

(** C7: on the two-city instance (cities [["A"; "B"]], entries A to B = 7
    and B to A = 7) the search, given fuel for at least two dequeues,
    returns a terminal node whose state is [("A", "B")] and whose
    accumulated path cost is 7; its path is the root followed by the step
    to ["B"]. *)
Theorem astar_two_cities (k : nat) :
  TSPProblem_init ["A"; "B"] two_city_matrix = Returns two_cities ∧
  astar (2 + k) two_cities = Returns (Found two_cities_terminal) ∧
  node_state two_cities_terminal = ["A"; "B"] ∧
  node_cost two_cities_terminal = 7 ∧
  node_path two_cities_terminal = [(None, ["A"]); (Some "B", ["A"; "B"])].
Proof.
  split; [reflexivity|]. split; [|done].
  change (2 + k)%nat with (S (S k)). vm_compute. reflexivity.
Qed.

(** With less fuel the model stops before any goal is dequeued. *)
Example astar_two_cities_short_fuel :
  astar 1 two_cities = Returns OutOfFuel ∧
  astar 0 two_cities = Returns OutOfFuel.
Proof. split; vm_compute; reflexivity. Qed.

(** The reference instance of the driver: the search ends in the tour
    prefix A, B, C, D with path cost 10 + 5 + 8. *)
Example astar_four_cities :
  ∃ n, astar 30 four_cities = Returns (Found n) ∧
       node_state n = ["A"; "B"; "C"; "D"] ∧ node_cost n = 23.
Proof. eexists. split; [vm_compute; reflexivity | done]. Qed.

(** With a city listed twice no state ever reaches the length of the
    list, and the search runs out of nodes. *)
Example astar_repeated_city :
  astar 3 repeated_city = Returns Exhausted.
Proof. vm_compute. reflexivity. Qed.

(** ** Further properties of the class [TSPProblem] *)

Lemma init_inv cs d self :
  TSPProblem_init cs d = Returns self →
  ∃ c0 rest, cs = c0 :: rest ∧ self = mkTSPProblem cs d [c0].
Proof.
  unfold TSPProblem_init. intros (c0 & Hc0 & [= <-])%bind_Returns.
  apply seq_first_Returns in Hc0. destruct cs as [|c cs']; [done|].
  injection Hc0 as ->. by exists c0, cs'.
Qed.

(** X1: the constructor keeps the city list and the matrix as given and makes
    the one-city tuple of the first city the initial state; that state is a
    goal exactly when the list has a single city, and the actions it
    offers are the later cities that differ from the first. *)
Theorem init_initial_state cs d self :
  TSPProblem_init cs d = Returns self →
  ∃ c0 rest,
    cs = c0 :: rest ∧
    cities self = cs ∧ distances self = d ∧ initial_state self = [c0] ∧
    (is_goal self (initial_state self) = true ↔ rest = []) ∧
    actions self (initial_state self) = filter (λ c, c ≠ c0) rest.
Proof.
  intros (c0 & rest & -> & ->)%init_inv. exists c0, rest.
  repeat split; simpl.
  - intros Hg%is_goal_length. simpl in Hg. by destruct rest.
  - by intros ->.
  - unfold actions. simpl. rewrite filter_cons_False.
    + apply list_filter_iff. intros c. by rewrite list_elem_of_singleton.
    + intros Hn. apply Hn. left.
Qed.

Lemma init_initial_state_witness :
  TSPProblem_init ["A"; "B"] two_city_matrix = Returns two_cities ∧
  ∃ c0 rest,
    ["A"; "B"] = c0 :: rest ∧
    cities two_cities = ["A"; "B"] ∧ distances two_cities = two_city_matrix ∧
    initial_state two_cities = [c0] ∧
    (is_goal two_cities (initial_state two_cities) = true ↔ rest = []) ∧
    actions two_cities (initial_state two_cities) = filter (λ c, c ≠ c0) rest.
Proof.
  split; [reflexivity|].
  apply (init_initial_state ["A"; "B"] two_city_matrix two_cities).
  reflexivity.
Defined.

(** X2: the states the transitions can build from the initial state are
    exactly the non-empty duplicate-free tuples over the city list that
    start with the first city of the list. *)
Theorem reachable_iff cs d self state :
  TSPProblem_init cs d = Returns self →
  reachable self state ↔
  NoDup state ∧ state ⊆ cs ∧ state ≠ [] ∧ head state = head cs.
Proof.
  intros Hinit. split.
  - intros Hr.
    destruct (reachable_shape _ _ _ _ Hinit Hr) as (? & Hsub & ? & ?).
    apply init_inv in Hinit as (c0 & rest & -> & ->). done.
  - apply init_inv in Hinit as (c0 & rest & -> & ->). simpl.
    induction state as [|x l IH] using rev_ind; [by intros (_ & _ & ? & _)|].
    intros (Hnd & Hsub & _ & Hhd).
    apply NoDup_app in Hnd as (Hl & Hdisj & _).
    destruct l as [|y l'].
    + simpl in Hhd. injection Hhd as ->. apply reachable_initial.
    + apply (reachable_step _ (y :: l') x).
      * apply IH. repeat split; [done | | done | done].
        intros z Hz. apply Hsub, elem_of_app. by left.
      * apply elem_of_actions. split.
        -- apply Hsub, elem_of_app. right. by apply list_elem_of_singleton.
        -- intros Hx. apply (Hdisj x Hx). by apply list_elem_of_singleton.
Qed.

Lemma reachable_iff_witness :
  TSPProblem_init ["A"; "B"] two_city_matrix = Returns two_cities ∧
  (reachable two_cities ["A"; "B"] ↔
   NoDup ["A"; "B"] ∧ ["A"; "B"] ⊆ ["A"; "B"] ∧ ["A"; "B"] ≠ [] ∧
   head ["A"; "B"] = head ["A"; "B"]).
Proof.
  split; [reflexivity|].
  apply (reachable_iff ["A"; "B"] two_city_matrix two_cities). reflexivity.
Defined.

(** X3: a reachable state never has more cities than the city list, so a path
    from the initial state has fewer steps than the list has cities. *)
Theorem reachable_length_bound cs d self state :
  TSPProblem_init cs d = Returns self → reachable self state →
  (1 ≤ length state ≤ length cs)%nat.
Proof.
  intros Hinit Hr.
  destruct (reachable_shape _ _ _ _ Hinit Hr) as (Hnd & Hsub & Hne & _).
  apply init_inv in Hinit as (c0 & rest & -> & ->). simpl in Hsub.
  split; [destruct state; [done | simpl; lia]|].
  by apply submseteq_length, NoDup_submseteq.
Qed.

Lemma reachable_length_bound_witness :
  TSPProblem_init ["A"; "B"] two_city_matrix = Returns two_cities ∧
  reachable two_cities ["A"; "B"] ∧
  (1 ≤ length ["A"; "B"] ≤ length ["A"; "B"])%nat.
Proof.
  split; [reflexivity|]. split; [exact two_cities_reachable|].
  apply (reachable_length_bound ["A"; "B"] two_city_matrix two_cities);
    [reflexivity | exact two_cities_reachable].
Defined.

(** X4: a reachable state that passes the goal test is a tour: a permutation
    of the city list that starts with its first city.  In particular no
    goal is reachable when the city list repeats a city. *)
Theorem reachable_goal_is_tour cs d self state :
  TSPProblem_init cs d = Returns self → reachable self state →
  is_goal self state = true →
  state ≡ₚ cs ∧ head state = head cs ∧ NoDup cs.
Proof.
  intros Hinit Hr Hg%is_goal_length.
  destruct (reachable_shape _ _ _ _ Hinit Hr) as (Hnd & Hsub & _ & Hhd).
  apply init_inv in Hinit as (c0 & rest & -> & ->). simpl in *.
  assert (state ≡ₚ c0 :: rest) as Hp.
  { apply submseteq_length_Permutation; [by apply NoDup_submseteq|].
    simpl. lia. }
  split; [done|]. split; [done|]. by rewrite <-Hp.
Qed.

Lemma reachable_goal_is_tour_witness :
  TSPProblem_init ["A"; "B"] two_city_matrix = Returns two_cities ∧
  reachable two_cities ["A"; "B"] ∧
  is_goal two_cities ["A"; "B"] = true ∧
  ["A"; "B"] ≡ₚ ["A"; "B"] ∧ head ["A"; "B"] = head ["A"; "B"] ∧
  NoDup ["A"; "B"].
Proof.
  split; [reflexivity|]. split; [exact two_cities_reachable|].
  split; [reflexivity|].
  apply (reachable_goal_is_tour ["A"; "B"] two_city_matrix two_cities);
    [reflexivity | exact two_cities_reachable | reflexivity].
Defined.

Lemma actions_result_filter self state action :
  actions self (result self state action) =
    filter (λ c, c ≠ action) (actions self state).
Proof.
  unfold actions, result. rewrite list_filter_filter.
  apply list_filter_iff. intros c.
  rewrite not_elem_of_app, list_elem_of_singleton. tauto.
Qed.

(** X5: applying an action removes exactly that city from the actions on
    offer and leaves the others in their order; the city just visited is
    never offered again. *)
Theorem actions_after_result self state action :
  actions self (result self state action) =
    filter (λ c, c ≠ action) (actions self state) ∧
  action ∉ actions self (result self state action).
Proof.
  split; [apply actions_result_filter|].
  rewrite actions_result_filter. intros [Hne _]%list_elem_of_filter. done.
Qed.

(** X6: each transition strictly shortens the list of actions on offer,
    so every chain of transitions ends. *)
Theorem actions_shrink self state action :
  action ∈ actions self state →
  (length (actions self (result self state action))
   < length (actions self state))%nat.
Proof.
  intros Hin. rewrite actions_result_filter.
  apply (length_filter_lt _ _ action); [done | by intros Hne].
Qed.

Lemma actions_shrink_witness :
  "B" ∈ actions two_cities ["A"] ∧
  (length (actions two_cities (result two_cities ["A"] "B"))
   < length (actions two_cities ["A"]))%nat.
Proof.
  assert ("B" ∈ actions two_cities ["A"]) as Hin by by_compute.
  split; [exact Hin|]. exact (actions_shrink two_cities ["A"] "B" Hin).
Defined.

(** X7: for a duplicate-free city list and a duplicate-free state drawn from
    it, the visited cities and the actions on offer split the city list:
    together they are a permutation of it, and the actions are
    duplicate-free. *)
Theorem visited_and_actions_partition self state :
  NoDup (cities self) → NoDup state → state ⊆ cities self →
  state ++ actions self state ≡ₚ cities self ∧
  (length state + length (actions self state))%nat = length (cities self) ∧
  NoDup (actions self state).
Proof.
  intros Hcs Hst Hsub.
  assert (state ++ actions self state ≡ₚ cities self) as Hp.
  { apply NoDup_Permutation; [|done|].
    - apply NoDup_app. repeat split; [done | | by apply NoDup_filter].
      intros c Hc [_ Hn]%elem_of_actions. done.
    - intros c. rewrite elem_of_app, elem_of_actions. split.
      + intros [Hc | [Hc _]]; auto.
      + intros Hc. destruct (decide (c ∈ state)); auto. }
  split; [done|]. split; [|by apply NoDup_filter].
  rewrite <-Hp, length_app. lia.
Qed.

Lemma visited_and_actions_partition_witness :
  NoDup (cities two_cities) ∧ NoDup ["A"] ∧ ["A"] ⊆ cities two_cities ∧
  ["A"] ++ actions two_cities ["A"] ≡ₚ cities two_cities.
Proof.
  assert (NoDup (cities two_cities)) as H1 by by_compute.
  assert (NoDup ["A"]) as H2 by by_compute.
  assert (["A"] ⊆ cities two_cities) as H3
    by (intros c ->%list_elem_of_singleton; by_compute).
  split; [exact H1|]. split; [exact H2|]. split; [exact H3|].
  exact (proj1 (visited_and_actions_partition two_cities ["A"] H1 H2 H3)).
Defined.

(** ** Exceptions of [cost] and [heuristic] *)

Lemma distance_Raises self a b e :
  distance self a b = Raises e ↔
  (distances self !! a = None ∧ e = KeyError a) ∨
  (∃ row, distances self !! a = Some row ∧ row !! b = None ∧ e = KeyError b).
Proof.
  unfold distance, dict_getitem.
  destruct (distances self !! a) as [row|]; simpl.
  - destruct (row !! b) eqn:Hb.
    + split; [done|]. intros [[[=] _] | (row' & [= <-] & ? & _)]. congruence.
    + split.
      * intros [= <-]. right. by exists row.
      * by intros [[[=] _] | (row' & _ & _ & ->)].
  - split.
    + intros [= <-]. by left.
    + by intros [[_ ->] | (row' & [=] & _)].
Qed.

(** X8: a [KeyError] of [cost] names the last city of the state when that
    city has no row in the matrix, and the action when the row exists and
    has no column for it; no other key is ever reported. *)
Theorem cost_KeyError self state action next_state k :
  cost self state action next_state = Raises (KeyError k) ↔
  ∃ c, last state = Some c ∧
       ((distances self !! c = None ∧ k = c) ∨
        (∃ row, distances self !! c = Some row ∧ row !! action = None ∧
                k = action)).
Proof.
  unfold cost, tuple_last. destruct (last state) as [c|].
  - rewrite bind_Returns_l, distance_Raises. split.
    + intros [[? [= ->]] | (row & ? & ? & [= ->])]; exists c;
        (split; [done|]); [by left | right; by exists row].
    + intros (c' & [= <-] & [[? ->] | (row & ? & ? & ->)]);
        [by left | right; by exists row].
  - rewrite bind_Raises_l. split; [done | by intros (c & [=] & _)].
Qed.

Lemma mapM_Raises {A B} (f : A → outcome B) (l : list A) e :
  mapM f l = Raises e → ∃ x, x ∈ l ∧ f x = Raises e.
Proof.
  induction l as [|x l IH]; simpl; [done|].
  destruct (f x) as [y|e'] eqn:Hx.
  - rewrite bind_Returns_l. destruct (mapM f l) as [k|e'']; [done|].
    rewrite bind_Raises_l. intros [= ->].
    destruct IH as (z & Hz & Hfz); [done|]. exists z. split; [by right|done].
  - rewrite bind_Raises_l. intros [= ->]. exists x. split; [left | done].
Qed.

Lemma return_leg_Raises self state e :
  (cur ← tuple_last state;
   row ← dict_getitem (distances self) cur;
   start ← seq_first state;
   dict_getitem row start) = Raises e →
  (state = [] ∧ e = IndexError) ∨ ∃ k, k ∈ state ∧ e = KeyError k.
Proof.
  unfold tuple_last, seq_first, dict_getitem, mbind, outcome_bind.
  destruct (last state) as [cur|] eqn:Hlast; simpl.
  - assert (cur ∈ state) as Hcur by by apply last_Some_elem_of.
    destruct (distances self !! cur) as [row|]; simpl.
    + destruct (head state) as [start|] eqn:Hhd; simpl.
      * destruct (row !! start); [discriminate|].
        intros [= <-]. right. exists start. split; [|done].
        by apply head_Some_elem_of.
      * apply head_None in Hhd as ->. by apply elem_of_nil in Hcur.
    + intros [= <-]. right. by exists cur.
  - apply last_None in Hlast as ->. intros [= <-]. by left.
Qed.

(** X9: the only exceptions [heuristic] raises are [IndexError], exactly on
    the empty state, and [KeyError] for a city of the state or of the city
    list; the guard on the unvisited list keeps [min] from ever seeing an
    empty sequence, so there is no [ValueError]. *)
Theorem heuristic_exceptions self state :
  (heuristic self state = Raises IndexError ↔ state = []) ∧
  heuristic self state ≠ Raises ValueError ∧
  heuristic self state ≠ Raises NegativeCost ∧
  (∀ k, heuristic self state = Raises (KeyError k) →
        k ∈ state ∨ k ∈ cities self).
Proof.
  assert (∀ e, heuristic self state = Raises e →
               (state = [] ∧ e = IndexError) ∨
               ∃ k, (k ∈ state ∨ k ∈ cities self) ∧ e = KeyError k) as Hcases.
  { intros e. unfold heuristic. destruct (is_goal self state).
    { intros [? | (k & ? & ?)]%return_leg_Raises; [by left | right; eauto]. }
    fold (actions self state).
    destruct (actions self state) as [|c l] eqn:Hact.
    { intros [? | (k & ? & ?)]%return_leg_Raises; [by left | right; eauto]. }
    destruct (tuple_last state) as [cur|e'] eqn:Hlast.
    - rewrite bind_Returns_l, <-Hact.
      apply tuple_last_Returns in Hlast.
      assert (cur ∈ state) as Hcur by by apply last_Some_elem_of.
      destruct (mapM (distance self cur) (actions self state)) as [ds|e'']
        eqn:Hm.
      + rewrite bind_Returns_l.
        apply mapM_Returns, Forall2_length in Hm. rewrite Hact in Hm.
        by destruct ds.
      + rewrite bind_Raises_l. intros [= ->]. right.
        apply mapM_Raises in Hm as (x & [Hx _]%elem_of_actions & Hd).
        apply distance_Raises in Hd as [[_ ->] | (row & _ & _ & ->)]; eauto.
    - rewrite bind_Raises_l. intros [= <-]. left.
      unfold tuple_last in Hlast.
      destruct (last state) eqn:Hl; [done|].
      apply last_None in Hl. by injection Hlast as <-. }
  split; [split|].
  - intros [[? _] | (k & _ & [=])]%Hcases. done.
  - intros ->. unfold heuristic.
    change (tuple_last []) with (@Raises City IndexError).
    destruct (is_goal self []); [done|]. rewrite bind_Raises_l. done.
  - split; [|split].
    + intros [[_ [=]] | (k & _ & [=])]%Hcases.
    + intros [[_ [=]] | (k & _ & [=])]%Hcases.
    + intros k [[_ [=]] | (k' & ? & [= ->])]%Hcases. done.
Qed.

(** ** The heuristic against the step costs *)

Lemma heuristic_goal_Returns self state v :
  is_goal self state = true →
  heuristic self state = Returns v ↔ return_leg self state v.
Proof. intros Hg. unfold heuristic. rewrite Hg. apply return_leg_Returns. Qed.

Lemma heuristic_not_goal_Returns self state v :
  is_goal self state = false →
  heuristic self state = Returns v ↔
  match actions self state with
  | [] => return_leg self state v
  | _ :: _ => nearest_unvisited self state v
  end.
Proof.
  intros Hg. unfold heuristic. rewrite Hg. fold (actions self state).
  destruct (tuple_last state) as [cur|e] eqn:Hcur.
  - destruct (actions self state) as [|c l] eqn:Hact.
    + rewrite <-return_leg_Returns. by rewrite Hcur.
    + rewrite bind_Returns_l, <-Hact.
      by apply nearest_unvisited_Returns, tuple_last_Returns.
  - rewrite bind_Raises_l. split; [done|].
    assert (last state = None) as Hlast.
    { unfold tuple_last in Hcur. by destruct (last state). }
    destruct (actions self state).
    + intros (? & ? & ? & _). congruence.
    + intros (? & ? & _). congruence.
Qed.

Lemma cost_Returns self state action next_state d :
  cost self state action next_state = Returns d ↔
  ∃ cur, last state = Some cur ∧ entry self cur action = Some d.
Proof.
  unfold cost. rewrite bind_Returns.
  setoid_rewrite tuple_last_Returns. by setoid_rewrite distance_Returns.
Qed.

(** X10: on a state that is no goal and still has actions, the value of the
    heuristic is the cost of the cheapest transition on offer: some action
    costs exactly that much and none costs less. *)
Theorem heuristic_cheapest_step self state v :
  is_goal self state = false → actions self state ≠ [] →
  heuristic self state = Returns v →
  (∃ a, a ∈ actions self state ∧
        cost self state a (result self state a) = Returns v) ∧
  (∀ a next_state d,
     a ∈ actions self state →
     cost self state a next_state = Returns d → v ≤ d).
Proof.
  intros Hg Hact Hh. apply heuristic_not_goal_Returns in Hh; [|done].
  destruct (actions self state) as [|c0 l] eqn:E; [done|]. rewrite <-E.
  destruct Hh as (cur & Hlast & (c & Hc & Hn & Hv) & Hmin). split.
  - exists c. split; [by apply elem_of_actions|].
    apply cost_Returns. by exists cur.
  - intros a n d [Ha Hna]%elem_of_actions (cur' & Hlast' & Hd)%cost_Returns.
    destruct (Hmin a Ha Hna) as (d' & Hd' & Hle). congruence.
Qed.

Lemma heuristic_cheapest_step_witness :
  is_goal two_cities ["A"] = false ∧ actions two_cities ["A"] ≠ [] ∧
  heuristic two_cities ["A"] = Returns 7 ∧
  ∃ a, a ∈ actions two_cities ["A"] ∧
       cost two_cities ["A"] a (result two_cities ["A"] a) = Returns 7.
Proof.
  assert (actions two_cities ["A"] ≠ []) as H2 by by_compute.
  assert (heuristic two_cities ["A"] = Returns 7) as H3
    by (vm_compute; reflexivity).
  split; [reflexivity|]. split; [exact H2|]. split; [exact H3|].
  exact (proj1 (heuristic_cheapest_step two_cities ["A"] 7 eq_refl H2 H3)).
Defined.

(** X11: at a goal the heuristic is the cost of the transition from the last
    city back to the first city of the state, failures included. *)
Theorem heuristic_goal_closing_cost self state start next_state :
  is_goal self state = true → head state = Some start →
  heuristic self state = cost self state start next_state.
Proof.
  intros Hg Hhd. unfold heuristic, cost, distance. rewrite Hg.
  assert (seq_first state = Returns start) as ->
    by by apply seq_first_Returns.
  destruct (tuple_last state) as [cur|e]; [|done].
  rewrite !bind_Returns_l.
  by destruct (dict_getitem (distances self) cur).
Qed.

Lemma heuristic_goal_closing_cost_witness :
  is_goal two_cities ["A"; "B"] = true ∧ head ["A"; "B"] = Some "A" ∧
  heuristic two_cities ["A"; "B"] = cost two_cities ["A"; "B"] "A" [].
Proof.
  split; [reflexivity|]. split; [reflexivity|].
  exact (heuristic_goal_closing_cost two_cities ["A"; "B"] "A" []
           eq_refl eq_refl).
Defined.

Lemma entry_nonneg self a b d :
  nonneg_matrix self → entry self a b = Some d → 0 ≤ d.
Proof.
  intros Hnn (row & Hrow & Hd)%bind_Some.
  unfold nonneg_matrix in Hnn.
  pose proof (map_Forall_lookup_1 _ _ _ _ Hnn Hrow) as Hr. simpl in Hr.
  exact (map_Forall_lookup_1 _ _ _ _ Hr Hd).
Qed.

(** X12: when no entry of the matrix is negative, neither [cost] nor
    [heuristic] ever returns a negative number. *)
Theorem cost_heuristic_nonneg self state :
  nonneg_matrix self →
  (∀ v, heuristic self state = Returns v → 0 ≤ v) ∧
  (∀ action next_state d,
     cost self state action next_state = Returns d → 0 ≤ d).
Proof.
  intros Hnn. split.
  - intros v Hv. destruct (is_goal self state) eqn:Hg.
    + apply heuristic_goal_Returns in Hv as (cur & start & _ & _ & He);
        [|done]. by eapply entry_nonneg.
    + apply heuristic_not_goal_Returns in Hv; [|done].
      destruct (actions self state).
      * destruct Hv as (cur & start & _ & _ & He). by eapply entry_nonneg.
      * destruct Hv as (cur & _ & (c & _ & _ & He) & _).
        by eapply entry_nonneg.
  - intros a n d (cur & _ & He)%cost_Returns. by eapply entry_nonneg.
Qed.

Lemma cost_heuristic_nonneg_witness :
  nonneg_matrix two_cities ∧
  (∀ v, heuristic two_cities ["A"] = Returns v → 0 ≤ v).
Proof.
  assert (nonneg_matrix two_cities) as Hnn by by_compute.
  split; [exact Hnn|].
  exact (proj1 (cost_heuristic_nonneg two_cities ["A"] Hnn)).
Defined.

(** ** Calls that cannot fail during a search *)

Lemma complete_matrix_entry self a b :
  complete_matrix self → a ∈ cities self → b ∈ cities self → a ≠ b →
  is_Some (entry self a b).
Proof.
  intros Hc Ha Hb Hne. unfold complete_matrix in Hc.
  rewrite Forall_forall in Hc. specialize (Hc a Ha).
  rewrite Forall_forall in Hc. by apply Hc.
Qed.

Lemma NoDup_head_last_ne {A} (l : list A) a b :
  NoDup l → (2 ≤ length l)%nat → head l = Some a → last l = Some b → a ≠ b.
Proof.
  destruct l as [|x [|y l']]; [simpl; lia | simpl; lia |].
  intros [Hx _]%NoDup_cons _ [= ->] Hl ->. apply Hx.
  rewrite last_cons_cons in Hl. by apply last_Some_elem_of.
Qed.

(** X13: with a matrix that has an entry for every ordered pair of distinct
    cities of the list, [cost] returns a number for every transition the
    search can take: every reachable state and every action on offer. *)
Theorem cost_succeeds_on_reachable cs d self state action :
  TSPProblem_init cs d = Returns self → complete_matrix self →
  reachable self state → action ∈ actions self state →
  ∃ v, cost self state action (result self state action) = Returns v.
Proof.
  intros Hinit Hcm Hr [Ha Hn]%elem_of_actions.
  destruct (reachable_shape _ _ _ _ Hinit Hr) as (_ & Hsub & Hne & _).
  apply last_is_Some in Hne as [cur Hlast].
  assert (cur ∈ state) as Hcur by by apply last_Some_elem_of.
  destruct (complete_matrix_entry self cur action) as [v Hv];
    [done | by apply Hsub | done | by intros -> |].
  exists v. apply cost_Returns. by exists cur.
Qed.

Lemma cost_succeeds_on_reachable_witness :
  TSPProblem_init ["A"; "B"] two_city_matrix = Returns two_cities ∧
  complete_matrix two_cities ∧
  reachable two_cities ["A"] ∧ "B" ∈ actions two_cities ["A"] ∧
  ∃ v, cost two_cities ["A"] "B" (result two_cities ["A"] "B") = Returns v.
Proof.
  assert (complete_matrix two_cities) as H2 by by_compute.
  assert (reachable two_cities ["A"]) as H3 by apply reachable_initial.
  assert ("B" ∈ actions two_cities ["A"]) as H4 by by_compute.
  split; [reflexivity|]. split; [exact H2|]. split; [exact H3|].
  split; [exact H4|].
  exact (cost_succeeds_on_reachable ["A"; "B"] two_city_matrix two_cities
           ["A"] "B" eq_refl H2 H3 H4).
Defined.

(** X14: with a duplicate-free city list of at least two cities and a matrix
    that has an entry for every ordered pair of distinct cities,
    [heuristic] returns a number on every reachable state. *)
Theorem heuristic_succeeds_on_reachable cs d self state :
  TSPProblem_init cs d = Returns self →
  NoDup cs → (2 ≤ length cs)%nat → complete_matrix self →
  reachable self state →
  ∃ v, heuristic self state = Returns v.
Proof.
  intros Hinit Hcs Hlen Hcm Hr.
  destruct (reachable_shape _ _ _ _ Hinit Hr) as (Hnd & Hsub & Hne & Hhd).
  apply init_inv in Hinit as (c0 & rest & -> & ->). simpl in *.
  apply last_is_Some in Hne as [cur Hlast].
  assert (cur ∈ state) as Hcur by by apply last_Some_elem_of.
  set (self := mkTSPProblem (c0 :: rest) d [c0]) in *.
  destruct (is_goal self state) eqn:Hg.
  - assert (length state = length (cities self)) as Hl
      by by apply is_goal_length.
    assert (c0 ≠ cur) as Hneq.
    { apply (NoDup_head_last_ne state); [done | | done | done].
      rewrite Hl. simpl. simpl in Hlen. lia. }
    destruct (complete_matrix_entry self cur c0) as [v Hv];
      [done | by apply Hsub | left | done |].
    exists v. apply heuristic_goal_Returns; [done|]. by exists cur, c0.
  - assert (actions self state ≠ []) as Hact.
    { intros E. apply actions_nil_is_goal in E; [congruence | done..]. }
    unfold heuristic. rewrite Hg. fold (actions self state).
    assert (tuple_last state = Returns cur) as ->
      by by apply tuple_last_Returns.
    rewrite bind_Returns_l.
    destruct (actions self state) as [|c l] eqn:E; [done|]. rewrite <-E.
    destruct (mapM_total (distance self cur) (actions self state))
      as [ds Hds].
    { intros x [Hx Hnx]%elem_of_actions.
      destruct (complete_matrix_entry self cur x) as [v Hv];
        [done | by apply Hsub | done | by intros <- |].
      exists v. by apply distance_Returns. }
    rewrite Hds, bind_Returns_l.
    apply mapM_Returns, Forall2_length in Hds. rewrite E in Hds.
    destruct ds as [|x ds']; [done|]. by eexists.
Qed.

Lemma heuristic_succeeds_on_reachable_witness :
  TSPProblem_init ["A"; "B"] two_city_matrix = Returns two_cities ∧
  NoDup ["A"; "B"] ∧ (2 ≤ length ["A"; "B"])%nat ∧
  complete_matrix two_cities ∧ reachable two_cities ["A"; "B"] ∧
  ∃ v, heuristic two_cities ["A"; "B"] = Returns v.
Proof.
  assert (NoDup ["A"; "B"]) as H2 by by_compute.
  assert (2 ≤ length ["A"; "B"])%nat as H3 by (simpl; lia).
  assert (complete_matrix two_cities) as H4 by by_compute.
  split; [reflexivity|]. split; [exact H2|]. split; [exact H3|].
  split; [exact H4|]. split; [exact two_cities_reachable|].
  exact (heuristic_succeeds_on_reachable ["A"; "B"] two_city_matrix
           two_cities ["A"; "B"] eq_refl H2 H3 H4 two_cities_reachable).
Defined.

(** X15: a problem with a single city: its initial state is already a goal, no
    action is on offer, and the heuristic looks up the entry from the city
    to itself, so it raises [KeyError] for that city unless the matrix has
    this diagonal entry. *)
Theorem single_city_heuristic c d self :
  TSPProblem_init [c] d = Returns self →
  is_goal self (initial_state self) = true ∧
  actions self (initial_state self) = [] ∧
  (∀ v, heuristic self (initial_state self) = Returns v ↔
        entry self c c = Some v) ∧
  (entry self c c = None →
   heuristic self (initial_state self) = Raises (KeyError c)).
Proof.
  intros [= <-]. simpl.
  assert (actions (mkTSPProblem [c] d [c]) [c] = []) as Hact.
  { unfold actions. simpl. rewrite filter_cons_False; [done|].
    intros Hn. apply Hn. left. }
  split; [done|]. split; [done|]. split.
  - intros v. rewrite heuristic_goal_Returns by done. split.
    + by intros (cur & start & [= <-] & [= <-] & He).
    + intros He. by exists c, c.
  - unfold entry, heuristic, dict_getitem. simpl.
    destruct (d !! c) as [row|]; simpl; [|done].
    by intros ->.
Qed.

Lemma single_city_heuristic_witness :
  TSPProblem_init ["A"] two_city_matrix
    = Returns (mkTSPProblem ["A"] two_city_matrix ["A"]) ∧
  heuristic (mkTSPProblem ["A"] two_city_matrix ["A"]) ["A"]
    = Raises (KeyError "A").
Proof.
  split; [reflexivity|].
  refine (proj2 (proj2 (proj2
    (single_city_heuristic "A" two_city_matrix
       (mkTSPProblem ["A"] two_city_matrix ["A"]) eq_refl))) _).
  vm_compute. reflexivity.
Defined.
